(** * logger: the logrus-backed Logger and Entry (logrus.go)

    A shallow embedding of [logrus.go]: the level mapping [ltolr], the
    [lLog] logger with its level-named constructors and generic dispatch,
    and the [lEntry] builder with its [Add*] setters and [Flush].

    Go code that reads the clock, allocates an entry, calls the backend or
    ends the process is written in a small state monad [Go] over a [World]
    (the wall clock, the [lLog] and [lEntry] objects allocated so far, and
    the calls made on the collaborators), whose outcomes are a normal
    return, a panic, or the end of the process. *)

From Stdlib Require Import ZArith.
From stdpp Require Import strings gmap pretty.

Local Open Scope Z_scope.

(** ** The backend: the part of sirupsen/logrus the facade calls *)

Module logrus.

(** The six severities of the backend that [logrus.go] names. *)
Inductive Level : Type :=
| PanicLevel | FatalLevel | ErrorLevel | WarnLevel | InfoLevel | DebugLevel.

#[global] Instance Level_eq_dec : EqDecision Level.
Proof. solve_decision. Defined.

(** A dynamically typed field value ([interface{}]): the five types of
    the typed setters, and [VOther] for any other piece of data handed to
    [AddAny] or [AddFields].  Function values, which the backend does
    not take as data, are left out. *)
Inductive Value : Type :=
| VStr (s : string)
| VBool (b : bool)
| VInt (n : Z)
| VTime (t : Z)
| VDur (d : Z)
| VOther (tag : N).

#[global] Instance Value_eq_dec : EqDecision Value.
Proof. solve_decision. Defined.

(** [logrus.Fields], a [map[string]interface{}]. *)
Abbreviation Fields := (gmap string Value).

(** [logrus.Logger]: the output sink and the threshold. *)
Record Logger : Type := mkLogger { Out : N; Threshold : Level }.

(** [logrus.Entry]: the logger it writes to and its field map.  A bare
    [*logrus.Logger] used as a [FieldLogger] is the entry with no
    field. *)
Record Entry : Type := mkEntry { Owner : Logger; Data : Fields }.

Definition New (w : N) (lvl : Level) : Entry :=
  {| Owner := {| Out := w; Threshold := lvl |}; Data := ∅ |}.

(** [WithFields] copies the receiver's map and then stores every
    supplied field over the copy; the receiver is not touched. *)
Definition WithFields (e : Entry) (fs : Fields) : Entry :=
  {| Owner := Owner e; Data := fs ∪ Data e |}.

(** [WithField key value] is [WithFields] of the one-field map. *)
Definition WithField (e : Entry) (key : string) (value : Value) : Entry :=
  WithFields e {[ key := value ]}.

End logrus.

Abbreviation Fields := (gmap string logrus.Value).

(** ** The Go runtime as seen by the facade *)

(** A pointer to an [lEntry]. *)
Abbreviation loc := positive.

(** What a [panic] carries. *)
Inductive PanicValue : Type :=
| PanicString (s : string)          (* panic(fmt.Sprintf(...)) *)
| PanicNilDeref                     (* method call or field access through nil *)
| PanicLogrus (e : logrus.Entry).   (* the backend's panic at the Panic level *)

(** How a call ends. *)
Inductive Outcome (A : Type) : Type :=
| Returned (a : A)
| Panicked (v : PanicValue)
| Exited (code : Z).
Arguments Returned {A} a.
Arguments Panicked {A} v.
Arguments Exited {A} code.

(** A call the facade makes on a collaborator, in the order made. *)
Inductive Event : Type :=
| EvLogln (e : logrus.Entry) (lvl : logrus.Level) (msg : string)
| EvExit (code : Z).

(** [lEntry]: the level and the backend entry under construction. *)
Record lEntry : Type := mklEntry { level : logrus.Level; entry : logrus.Entry }.

(** [lLog]: the backend field logger it writes through. *)
Record lLog : Type := mklLog { writer : logrus.Entry }.

Record World : Type := mkWorld {
  clock : Z;                 (* what time.Now() returns *)
  loggers : gmap loc lLog;   (* the lLog objects allocated so far *)
  heap : gmap loc lEntry;    (* the lEntry objects allocated so far *)
  calls : list Event         (* calls on the backend and on os.Exit, oldest first *)
}.

(** The ways a step changes the world. *)
Definition with_clock (t : Z) (w : World) : World :=
  {| clock := t; loggers := loggers w; heap := heap w; calls := calls w |}.

Definition with_loggers (ls : gmap loc lLog) (w : World) : World :=
  {| clock := clock w; loggers := ls; heap := heap w; calls := calls w |}.

Definition with_heap (h : gmap loc lEntry) (w : World) : World :=
  {| clock := clock w; loggers := loggers w; heap := h; calls := calls w |}.

Definition with_call (ev : Event) (w : World) : World :=
  {| clock := clock w; loggers := loggers w; heap := heap w; calls := calls w ++ [ev] |}.

Definition Go (A : Type) : Type := World → Outcome A * World.

#[global] Instance Go_ret : MRet Go := λ A a w, (Returned a, w).

#[global] Instance Go_bind : MBind Go := λ A B f m w,
  match m w with
  | (Returned a, w') => f a w'
  | (Panicked v, w') => (Panicked v, w')
  | (Exited c, w') => (Exited c, w')
  end.

Definition panic {A} (v : PanicValue) : Go A := λ w, (Panicked v, w).

Definition emit (ev : Event) : Go unit := λ w, (Returned (), with_call ev w).

(** [time.Now()]. *)
Definition time_Now : Go Z := λ w, (Returned (clock w), w).

(** [os.Exit(code)]: the call is made and the process ends. *)
Definition os_Exit {A} (code : Z) : Go A := λ w, (Exited code, with_call (EvExit code) w).

(** [&lEntry{...}]: a new object at an address not in use. *)
Definition alloc (e : lEntry) : Go loc := λ w,
  let l := fresh (dom (heap w)) in
  (Returned l, with_heap (<[l := e]> (heap w)) w).

(** Reading through a pointer; a pointer to no object is nil. *)
Definition load (l : loc) : Go lEntry := λ w,
  match heap w !! l with
  | Some e => (Returned e, w)
  | None => (Panicked PanicNilDeref, w)
  end.

(** [l.entry = e']. *)
Definition set_entry (l : loc) (e' : logrus.Entry) : Go unit := λ w,
  match heap w !! l with
  | Some e => (Returned (), with_heap (<[l := {| level := level e; entry := e' |}]> (heap w)) w)
  | None => (Panicked PanicNilDeref, w)
  end.

(** [&lLog{...}]: a new logger object at an address not in use. *)
Definition new_lLog (l : lLog) : Go loc := λ w,
  let p := fresh (dom (loggers w)) in
  (Returned p, with_loggers (<[p := l]> (loggers w)) w).

(** Reading the logger a [*lLog] leads to; a pointer to no logger is nil. *)
Definition load_lLog (p : loc) : Go lLog := λ w,
  match loggers w !! p with
  | Some l => (Returned l, w)
  | None => (Panicked PanicNilDeref, w)
  end.

(** A method called on a [*lLog] receiver: its body runs on the object
    the pointer leads to, and panics through a pointer to no logger. *)
Definition through {A : Type} (p : loc) (body : lLog → Go A) : Go A :=
  l ← load_lLog p; body l.

(** [entry.Logln(level, msg)]: the record is handed to the backend, which
    panics once it has logged at the Panic level ("Executing a log at panic
    level will call panic()", as the comment on [Panic] has it).  Whether
    the backend writes the record out or drops it for its threshold is the
    backend's business and is not traced. *)
Definition logrus_Logln (e : logrus.Entry) (lvl : logrus.Level) (msg : string) : Go unit :=
  emit (EvLogln e lvl msg) ;;
  if decide (lvl = logrus.PanicLevel) then panic (PanicLogrus e) else mret ().

(** ** Errors *)

(** A non-nil [error], seen through the two observations the facade makes:
    its [Error()] text and the text [errors.ErrorStack] returns for it. *)
Record error_value : Type := mkError { Error : string; ErrorStack : string }.

(** A Go [error]: nil, or an error value. *)
Abbreviation error := (option error_value).

(** [err.Error()]: a method call on the nil interface panics. *)
Definition error_Error (err : error) : Go string :=
  match err with
  | Some e => mret (Error e)
  | None => panic PanicNilDeref
  end.

(** [errors.ErrorStack(err)]: never fails; empty for nil. *)
Definition errors_ErrorStack (err : error) : string :=
  match err with
  | Some e => ErrorStack e
  | None => ""
  end.

(** ** The facade's Level *)

(** Modelled from the spec: the declaration of [Level] and of its six
    constants is not in logrus.go.  [Level] is an integer type (ltolr
    prints it with [%d]); the six constants are taken as they come. *)
Abbreviation Level := Z (only parsing).

Class LevelDecl : Type := mkLevelDecl {
  DebugLevel : Z;
  InfoLevel : Z;
  WarnLevel : Z;
  ErrorLevel : Z;
  FatalLevel : Z;
  PanicLevel : Z
}.

(** The closed enumeration. *)
Definition members `{LevelDecl} : list Z :=
  [DebugLevel; InfoLevel; WarnLevel; ErrorLevel; FatalLevel; PanicLevel].

(** Modelled from the spec: the six tiers numbered in the spec's order,
    Debug < Info < Warn < Error < Fatal < Panic. *)
Definition iota_levels : LevelDecl :=
  {| DebugLevel := 0; InfoLevel := 1; WarnLevel := 2;
     ErrorLevel := 3; FatalLevel := 4; PanicLevel := 5 |}.

(** ** logrus.go *)

Section Facade.
Context `{LevelDecl}.

Definition ltolr (level : Level) : Go logrus.Level :=
  if decide (level = DebugLevel) then mret logrus.DebugLevel
  else if decide (level = InfoLevel) then mret logrus.InfoLevel
  else if decide (level = WarnLevel) then mret logrus.WarnLevel
  else if decide (level = ErrorLevel) then mret logrus.ErrorLevel
  else if decide (level = FatalLevel) then mret logrus.FatalLevel
  else if decide (level = PanicLevel) then mret logrus.PanicLevel
  else panic (PanicString ("Can't map level " +:+ pretty level +:+ " to logrus level")).

Definition newLogrus (w : N) (lvl : Level) : Go lLog :=
  lr ← ltolr lvl;
  mret {| writer := logrus.New w lr |}.

Definition lLog_WithField (l : lLog) (key value : string) : Go lLog :=
  let writer := logrus.WithField (writer l) key (logrus.VStr value) in
  mret {| writer := writer |}.

(** [WithField] as called on a [Logger], a pointer to an [lLog]: the
    receiver is read through the pointer, and the logger [lLog_WithField]
    makes of it is a new object, whose address is returned. *)
Definition Logger_WithField (p : loc) (key value : string) : Go loc :=
  through p (λ l, l' ← lLog_WithField l key value; new_lLog l').

Definition lLog_Debug (l : lLog) : Go loc :=
  now ← time_Now;
  alloc {| level := logrus.DebugLevel;
           entry := logrus.WithField (writer l) "time" (logrus.VTime now) |}.

Definition lLog_Info (l : lLog) : Go loc :=
  now ← time_Now;
  alloc {| level := logrus.InfoLevel;
           entry := logrus.WithField (writer l) "time" (logrus.VTime now) |}.

Definition lLog_Warn (l : lLog) : Go loc :=
  now ← time_Now;
  alloc {| level := logrus.WarnLevel;
           entry := logrus.WithField (writer l) "time" (logrus.VTime now) |}.

Definition lLog_Error (l : lLog) : Go loc :=
  now ← time_Now;
  alloc {| level := logrus.ErrorLevel;
           entry := logrus.WithField (writer l) "time" (logrus.VTime now) |}.

Definition lLog_Fatal (l : lLog) : Go loc :=
  now ← time_Now;
  alloc {| level := logrus.FatalLevel;
           entry := logrus.WithField (writer l) "time" (logrus.VTime now) |}.

Definition lLog_Panic (l : lLog) : Go loc :=
  now ← time_Now;
  alloc {| level := logrus.PanicLevel;
           entry := logrus.WithField (writer l) "time" (logrus.VTime now) |}.

Definition lLog_Level (l : lLog) (lvl : Level) : Go loc :=
  if decide (lvl = DebugLevel) then lLog_Debug l
  else if decide (lvl = InfoLevel) then lLog_Info l
  else if decide (lvl = WarnLevel) then lLog_Warn l
  else if decide (lvl = ErrorLevel) then lLog_Error l
  else if decide (lvl = FatalLevel) then lLog_Fatal l
  else if decide (lvl = PanicLevel) then lLog_Panic l
  else lLog_Info l.

End Facade.

Definition lEntry_Flush (l : loc) (msg : string) : Go unit :=
  e ← load l;
  logrus_Logln (entry e) (level e) msg ;;
  if decide (level e = logrus.FatalLevel) then os_Exit 1 else mret ().

Definition lEntry_AddFields (l : loc) (fs : Fields) : Go loc :=
  e ← load l;
  set_entry l (logrus.WithFields (entry e) fs) ;;
  mret l.

(** [l.entry = l.entry.WithField(key, val)], the body of each setter. *)
Definition with_field (l : loc) (key : string) (val : logrus.Value) : Go unit :=
  e ← load l;
  set_entry l (logrus.WithField (entry e) key val).

Definition lEntry_AddErr (l : loc) (err : error) : Go loc :=
  msg ← error_Error err;
  let st := errors_ErrorStack err in
  with_field l "err" (logrus.VStr msg) ;;
  with_field l "err_stack" (logrus.VStr st) ;;
  mret l.

Definition lEntry_AddError (l : loc) (key : string) (val : error) : Go loc :=
  msg ← error_Error val;
  let st := errors_ErrorStack val in
  with_field l key (logrus.VStr msg) ;;
  with_field l (key +:+ "_stack") (logrus.VStr st) ;;
  mret l.

Definition lEntry_AddBool (l : loc) (key : string) (val : bool) : Go loc :=
  with_field l key (logrus.VBool val) ;; mret l.

Definition lEntry_AddInt (l : loc) (key : string) (val : Z) : Go loc :=
  with_field l key (logrus.VInt val) ;; mret l.

Definition lEntry_AddStr (l : loc) (key : string) (val : string) : Go loc :=
  with_field l key (logrus.VStr val) ;; mret l.

Definition lEntry_AddTime (l : loc) (key : string) (val : Z) : Go loc :=
  with_field l key (logrus.VTime val) ;; mret l.

Definition lEntry_AddDur (l : loc) (key : string) (val : Z) : Go loc :=
  with_field l key (logrus.VDur val) ;; mret l.

Definition lEntry_AddAny (l : loc) (key : string) (val : logrus.Value) : Go loc :=
  with_field l key val ;; mret l.

(** The level-named constructors, each with the backend level it tags. *)
Definition constructors : list (logrus.Level * (lLog → Go loc)) :=
  [ (logrus.DebugLevel, lLog_Debug); (logrus.InfoLevel, lLog_Info);
    (logrus.WarnLevel, lLog_Warn); (logrus.ErrorLevel, lLog_Error);
    (logrus.FatalLevel, lLog_Fatal); (logrus.PanicLevel, lLog_Panic) ].

(** ** Chains of setters *)

(** One [Add*] call of a fluent chain. *)
Inductive AddCall : Type :=
| CFields (fs : Fields)
| CErr (err : error)
| CError (key : string) (val : error)
| CBool (key : string) (val : bool)
| CInt (key : string) (val : Z)
| CStr (key : string) (val : string)
| CTime (key : string) (val : Z)
| CDur (key : string) (val : Z)
| CAny (key : string) (val : logrus.Value).

Definition call (l : loc) (c : AddCall) : Go loc :=
  match c with
  | CFields fs => lEntry_AddFields l fs
  | CErr err => lEntry_AddErr l err
  | CError key val => lEntry_AddError l key val
  | CBool key val => lEntry_AddBool l key val
  | CInt key val => lEntry_AddInt l key val
  | CStr key val => lEntry_AddStr l key val
  | CTime key val => lEntry_AddTime l key val
  | CDur key val => lEntry_AddDur l key val
  | CAny key val => lEntry_AddAny l key val
  end.

(** [l.Add1(..).Add2(..)...]: each call is made on what the one before
    returned. *)
Fixpoint chain (l : loc) (cs : list AddCall) : Go loc :=
  match cs with
  | [] => mret l
  | c :: cs' => l' ← call l c; chain l' cs'
  end.

(** A call that is handed an error is handed a non-nil one. *)
Definition non_nil (c : AddCall) : Prop :=
  match c with
  | CErr err | CError _ err => is_Some err
  | _ => True
  end.

#[global] Instance non_nil_dec c : Decision (non_nil c).
Proof. destruct c; simpl; apply _. Defined.

(** The fields a call sets, by key. *)
Definition written (c : AddCall) : Fields :=
  match c with
  | CFields fs => fs
  | CErr (Some e) =>
      <["err_stack" := logrus.VStr (ErrorStack e)]> {["err" := logrus.VStr (Error e)]}
  | CError key (Some e) =>
      <[key +:+ "_stack" := logrus.VStr (ErrorStack e)]> {[key := logrus.VStr (Error e)]}
  | CErr None | CError _ None => ∅
  | CBool key val => {[key := logrus.VBool val]}
  | CInt key val => {[key := logrus.VInt val]}
  | CStr key val => {[key := logrus.VStr val]}
  | CTime key val => {[key := logrus.VTime val]}
  | CDur key val => {[key := logrus.VDur val]}
  | CAny key val => {[key := val]}
  end.

(** What the latest call of [cs] that set [k] gave it, if any call did. *)
Fixpoint latest (cs : list AddCall) (k : string) : option logrus.Value :=
  match cs with
  | [] => None
  | c :: cs' =>
      match latest cs' k with
      | Some v => Some v
      | None => written c !! k
      end
  end.

(** How [Flush] ends at each level. *)
Definition flush_outcome (e : lEntry) : Outcome unit :=
  match level e with
  | logrus.FatalLevel => Exited 1
  | logrus.PanicLevel => Panicked (PanicLogrus (entry e))
  | _ => Returned ()
  end.

(** The number of fields of [m] under the key [k]. *)
Definition count_key (k : string) (m : Fields) : nat :=
  length (filter (λ kv, kv.1 = k) (map_to_list m)).

(** The fields of a bulk map, handed over one [AddAny] at a time. *)
Definition fields_calls (fs : Fields) : list AddCall :=
  (λ kv, CAny kv.1 kv.2) <$> map_to_list fs.

(** ** Sample values *)

(** A logger writing to sink 0 at threshold Info, and its child carrying
    the field svc=x. *)
Definition root_logger : lLog := {| writer := logrus.New 0 logrus.InfoLevel |}.

Definition svc_logger : lLog :=
  {| writer := logrus.WithField (writer root_logger) "svc" (logrus.VStr "x") |}.

(** An entry of [svc_logger] at the given level, before its time stamp. *)
Definition svc_entry (lvl : logrus.Level) : lEntry :=
  {| level := lvl; entry := writer svc_logger |}.

(** A world at time 7 holding one entry at address 1. *)
Definition one_entry_world (lvl : logrus.Level) : World :=
  {| clock := 7; loggers := ∅; heap := {[ 1%positive := svc_entry lvl ]}; calls := [] |}.

(** A world at time 7 with no entry yet. *)
Definition empty_world : World := {| clock := 7; loggers := ∅; heap := ∅; calls := [] |}.

(** A world at time 7 holding [svc_logger] at address 1 and one earlier
    write. *)
Definition logger_world : World :=
  {| clock := 7;
     loggers := {[ 1%positive := svc_logger ]};
     heap := ∅;
     calls := [EvLogln (writer svc_logger) logrus.InfoLevel "up"] |}.

(** An error with message and stack text, and one without trace text. *)
Definition traced_error : error_value :=
  {| Error := "open: no such file"; ErrorStack := "main.go:12: open: no such file" |}.

Definition bare_error : error_value := {| Error := "boom"; ErrorStack := "" |}.

(** * Properties *)

(** ** The monad and the primitive steps *)

Ltac go_unfold :=
  unfold mbind, mret, Go_bind, Go_ret, panic, emit, time_Now, os_Exit, alloc in *.

Lemma with_heap_id (w : World) : with_heap (heap w) w = w.
Proof. by destruct w. Qed.

Lemma load_ok l e w : heap w !! l = Some e → load l w = (Returned e, w).
Proof. intros Hl. unfold load. by rewrite Hl. Qed.

Lemma set_entry_ok l e d w :
  heap w !! l = Some e →
  set_entry l d w =
    (Returned (), with_heap (<[l := {| level := level e; entry := d |}]> (heap w)) w).
Proof. intros Hl. unfold set_entry. by rewrite Hl. Qed.

Lemma WithField_Data e k v :
  logrus.Data (logrus.WithField e k v) = <[k := v]> (logrus.Data e).
Proof. simpl. by rewrite insert_union_singleton_l. Qed.

Lemma with_field_ok l e k v w :
  heap w !! l = Some e →
  with_field l k v w =
    (Returned (),
     with_heap (<[l := {| level := level e; entry := logrus.WithField (entry e) k v |}]> (heap w)) w).
Proof.
  intros Hl. unfold with_field. go_unfold.
  rewrite (load_ok _ _ _ Hl). by apply set_entry_ok.
Qed.

Lemma with_field_nil l k v w :
  heap w !! l = None → with_field l k v w = (Panicked PanicNilDeref, w).
Proof. intros Hl. unfold with_field, load. go_unfold. by rewrite Hl. Qed.

(** ** Flush *)

Lemma Flush_ok l e msg w :
  heap w !! l = Some e →
  lEntry_Flush l msg w =
    (flush_outcome e,
     if decide (level e = logrus.FatalLevel)
     then with_call (EvExit 1) (with_call (EvLogln (entry e) (level e) msg) w)
     else with_call (EvLogln (entry e) (level e) msg) w).
Proof.
  intros Hl. unfold lEntry_Flush, logrus_Logln, flush_outcome. go_unfold.
  rewrite (load_ok _ _ _ Hl). by destruct (level e).
Qed.

(** C1. For every entry at the Fatal level, [Flush msg] first hands the
    record (the level, the accumulated fields, the message) to the backend
    and only then ends the process, with the non-zero status 1: the calls
    made are the backend write followed by the exit, in that order, after
    whatever had been called before. *)
Theorem Flush_fatal_writes_then_exits (w : World) (l : loc) (e : lEntry) (msg : string) :
  heap w !! l = Some e →
  level e = logrus.FatalLevel →
  ∃ w', lEntry_Flush l msg w = (Exited 1, w') ∧
        1 ≠ 0 ∧
        calls w' = calls w ++ [EvLogln (entry e) logrus.FatalLevel msg; EvExit 1] ∧
        heap w' = heap w.
Proof.
  intros Hl Hfatal. rewrite (Flush_ok _ _ _ _ Hl).
  unfold flush_outcome. rewrite Hfatal. rewrite decide_True by done.
  eexists. split; [reflexivity|]. simpl. by rewrite <-app_assoc.
Qed.

Lemma Flush_fatal_writes_then_exits_witness :
  ∃ w', lEntry_Flush 1 "disk full" (one_entry_world logrus.FatalLevel) = (Exited 1, w') ∧
        1 ≠ 0 ∧
        calls w' = calls (one_entry_world logrus.FatalLevel) ++
          [EvLogln (entry (svc_entry logrus.FatalLevel)) logrus.FatalLevel "disk full"; EvExit 1] ∧
        heap w' = heap (one_entry_world logrus.FatalLevel).
Proof.
  apply (Flush_fatal_writes_then_exits (one_entry_world logrus.FatalLevel) 1
           (svc_entry logrus.FatalLevel) "disk full"); reflexivity.
Defined.

(** C10 as stated fails at the Panic level: the backend panics once it has
    the record, so [Flush] does not return. *)
Lemma Flush_panic_does_not_return :
  fst (lEntry_Flush 1 "bad state" (one_entry_world logrus.PanicLevel))
    = Panicked (PanicLogrus (entry (svc_entry logrus.PanicLevel))) ∧
  fst (lEntry_Flush 1 "bad state" (one_entry_world logrus.PanicLevel)) ≠ Returned ().
Proof. split; [reflexivity | discriminate]. Qed.

(** C10, amended. For every entry whose level is not Fatal, [Flush msg]
    makes the one backend write and no call of [os.Exit]; it returns at the
    Debug, Info, Warn and Error levels, and at the Panic level it leaves by
    the backend's panic.  Only at the Fatal level does [Flush] end in the
    facade's exit. *)
Theorem Flush_exits_only_at_fatal (w : World) (l : loc) (e : lEntry) (msg : string) :
  heap w !! l = Some e →
  (level e ≠ logrus.FatalLevel →
     lEntry_Flush l msg w =
       (flush_outcome e, with_call (EvLogln (entry e) (level e) msg) w) ∧
     (level e ≠ logrus.PanicLevel → flush_outcome e = Returned ()) ∧
     (level e = logrus.PanicLevel → flush_outcome e = Panicked (PanicLogrus (entry e)))) ∧
  (∀ code w', lEntry_Flush l msg w = (Exited code, w') → level e = logrus.FatalLevel).
Proof.
  intros Hl. rewrite (Flush_ok _ _ _ _ Hl). split.
  - intros Hnf. rewrite decide_False by done. split; [done|].
    unfold flush_outcome. by destruct (level e).
  - intros code w'. unfold flush_outcome. by destruct (level e).
Qed.

Lemma Flush_exits_only_at_fatal_witness :
  lEntry_Flush 1 "ready" (one_entry_world logrus.InfoLevel) =
    (Returned (),
     with_call (EvLogln (entry (svc_entry logrus.InfoLevel)) logrus.InfoLevel "ready")
       (one_entry_world logrus.InfoLevel)).
Proof.
  destruct (Flush_exits_only_at_fatal (one_entry_world logrus.InfoLevel) 1
              (svc_entry logrus.InfoLevel) "ready" eq_refl) as [Hnf _].
  destruct (Hnf ltac:(discriminate)) as [Heq _]. exact Heq.
Defined.

(** ** The level mapping and the generic dispatch *)

Section Levels.
Context `{LevelDecl}.
Hypothesis distinct : NoDup members.

Lemma members_distinct :
  DebugLevel ≠ InfoLevel ∧ DebugLevel ≠ WarnLevel ∧ DebugLevel ≠ ErrorLevel ∧
  DebugLevel ≠ FatalLevel ∧ DebugLevel ≠ PanicLevel ∧
  InfoLevel ≠ WarnLevel ∧ InfoLevel ≠ ErrorLevel ∧ InfoLevel ≠ FatalLevel ∧
  InfoLevel ≠ PanicLevel ∧
  WarnLevel ≠ ErrorLevel ∧ WarnLevel ≠ FatalLevel ∧ WarnLevel ≠ PanicLevel ∧
  ErrorLevel ≠ FatalLevel ∧ ErrorLevel ≠ PanicLevel ∧
  FatalLevel ≠ PanicLevel.
Proof using distinct.
  pose proof distinct as Hnd. unfold members in Hnd.
  rewrite !NoDup_cons, !elem_of_cons, !elem_of_nil in Hnd.
  repeat split; intros Heq; rewrite Heq in Hnd; tauto.
Qed.

Lemma not_member (lvl : Z) :
  lvl ∉ members ↔
  lvl ≠ DebugLevel ∧ lvl ≠ InfoLevel ∧ lvl ≠ WarnLevel ∧
  lvl ≠ ErrorLevel ∧ lvl ≠ FatalLevel ∧ lvl ≠ PanicLevel.
Proof. unfold members. rewrite !elem_of_cons, elem_of_nil. tauto. Qed.

(** Runs a [switch] over the level constants once the cases that cannot
    match are known to differ. *)
Ltac switch_levels :=
  repeat case_decide; first [reflexivity | congruence].

(** C3. [ltolr] maps each of the six members of the enumeration to the
    backend level of the same name, and panics, without returning, on
    every value outside the six. *)
Theorem ltolr_total_on_members (w : World) :
  ltolr DebugLevel w = (Returned logrus.DebugLevel, w) ∧
  ltolr InfoLevel w = (Returned logrus.InfoLevel, w) ∧
  ltolr WarnLevel w = (Returned logrus.WarnLevel, w) ∧
  ltolr ErrorLevel w = (Returned logrus.ErrorLevel, w) ∧
  ltolr FatalLevel w = (Returned logrus.FatalLevel, w) ∧
  ltolr PanicLevel w = (Returned logrus.PanicLevel, w) ∧
  (∀ level : Z, level ∉ members →
     ltolr level w =
       (Panicked (PanicString ("Can't map level " +:+ pretty level +:+ " to logrus level")), w)).
Proof using distinct.
  destruct members_distinct as (?&?&?&?&?&?&?&?&?&?&?&?&?&?&?).
  split_and!; try (unfold ltolr; switch_levels).
  intros level (?&?&?&?&?&?)%not_member.
  unfold ltolr. switch_levels.
Qed.

(** C2. [Level lvl] is the level-named constructor of [lvl] when [lvl] is
    one of the six members; for every other value it does not fail: it
    returns a new entry at the Info level, as [Info] does. *)
Theorem Level_dispatches_or_falls_back (l : lLog) (w : World) :
  lLog_Level l DebugLevel w = lLog_Debug l w ∧
  lLog_Level l InfoLevel w = lLog_Info l w ∧
  lLog_Level l WarnLevel w = lLog_Warn l w ∧
  lLog_Level l ErrorLevel w = lLog_Error l w ∧
  lLog_Level l FatalLevel w = lLog_Fatal l w ∧
  lLog_Level l PanicLevel w = lLog_Panic l w ∧
  (∀ lvl : Z, lvl ∉ members →
     lLog_Level l lvl w = lLog_Info l w ∧
     ∃ p, lLog_Level l lvl w =
            (Returned p,
             with_heap (<[p := {| level := logrus.InfoLevel;
                                  entry := logrus.WithField (writer l) "time"
                                             (logrus.VTime (clock w)) |}]> (heap w)) w) ∧
          p ∉ dom (heap w)).
Proof using distinct.
  destruct members_distinct as (?&?&?&?&?&?&?&?&?&?&?&?&?&?&?).
  split_and!; try (unfold lLog_Level; switch_levels).
  intros lvl (?&?&?&?&?&?)%not_member.
  assert (lLog_Level l lvl w = lLog_Info l w) as Hinfo
    by (unfold lLog_Level; switch_levels).
  split; [exact Hinfo|]. rewrite Hinfo.
  exists (fresh (dom (heap w))). split; [reflexivity | apply is_fresh].
Qed.

End Levels.

Lemma iota_levels_distinct : NoDup (@members iota_levels).
Proof. apply (bool_decide_unpack _). by vm_compute. Qed.

Lemma ltolr_total_on_members_witness :
  @ltolr iota_levels 1 empty_world = (Returned logrus.InfoLevel, empty_world) ∧
  @ltolr iota_levels 42 empty_world =
    (Panicked (PanicString "Can't map level 42 to logrus level"), empty_world).
Proof.
  destruct (@ltolr_total_on_members iota_levels iota_levels_distinct empty_world)
    as (_ & Hinfo & _ & _ & _ & _ & Hout).
  split; [exact Hinfo|].
  apply (Hout 42). apply (bool_decide_unpack _). by vm_compute.
Defined.

Lemma Level_dispatches_or_falls_back_witness :
  @lLog_Level iota_levels svc_logger 4 empty_world = lLog_Fatal svc_logger empty_world ∧
  @lLog_Level iota_levels svc_logger 42 empty_world = lLog_Info svc_logger empty_world.
Proof.
  destruct (@Level_dispatches_or_falls_back iota_levels iota_levels_distinct
              svc_logger empty_world)
    as (_ & _ & _ & _ & Hfatal & _ & Hout).
  split; [exact Hfatal|].
  apply (Hout 42). apply (bool_decide_unpack _). by vm_compute.
Defined.

(** ** The logger: constructors and child loggers *)

Lemma constructor_ok (lvl : logrus.Level) (mk : lLog → Go loc) (l : lLog) (w : World) :
  (lvl, mk) ∈ constructors →
  mk l w =
    (Returned (fresh (dom (heap w))),
     with_heap (<[fresh (dom (heap w)) :=
                  {| level := lvl;
                     entry := logrus.WithField (writer l) "time" (logrus.VTime (clock w)) |}]>
                  (heap w)) w).
Proof.
  unfold constructors. rewrite !elem_of_cons, elem_of_nil.
  intros [?|[?|[?|[?|[?|[?|[]]]]]]]; simplify_eq; reflexivity.
Qed.

(** C5. Each of the six level-named constructors returns a new entry (at
    an address no entry had), tagged with the level of its name, whose
    fields are the logger's persistent fields plus "time", the clock
    reading at the call; however far the clock has moved by the time of
    [Flush], the record handed over is that entry, with the reading of the
    constructor call. *)
Theorem constructors_stamp_time (l : lLog) (w : World) (lvl : logrus.Level) (mk : lLog → Go loc) :
  (lvl, mk) ∈ constructors →
  ∃ p d,
    mk l w = (Returned p, with_heap (<[p := {| level := lvl; entry := d |}]> (heap w)) w) ∧
    (p ∉ dom (heap w)) ∧
    logrus.Owner d = logrus.Owner (writer l) ∧
    logrus.Data d = <["time" := logrus.VTime (clock w)]> (logrus.Data (writer l)) ∧
    logrus.Data d !! "time" = Some (logrus.VTime (clock w)) ∧
    ∀ (later : Z) (msg : string),
      ∃ evs, calls (snd (lEntry_Flush p msg (with_clock later (snd (mk l w))))) =
               calls w ++ EvLogln d lvl msg :: evs.
Proof.
  intros Hmk. rewrite (constructor_ok _ _ l w Hmk).
  eexists _, _. split; [reflexivity|].
  split; [apply is_fresh|]. split; [reflexivity|].
  split; [apply WithField_Data|].
  split; [rewrite WithField_Data; apply lookup_insert_eq|].
  intros later msg.
  erewrite Flush_ok by (simpl; apply lookup_insert_eq).
  simpl. case_decide; simpl; eauto.
  rewrite <-app_assoc. eauto.
Qed.

Lemma constructors_stamp_time_witness :
  ∃ p d,
    lLog_Warn svc_logger empty_world =
      (Returned p,
       with_heap (<[p := {| level := logrus.WarnLevel; entry := d |}]> (heap empty_world))
         empty_world) ∧
    (p ∉ dom (heap empty_world)) ∧
    logrus.Owner d = logrus.Owner (writer svc_logger) ∧
    logrus.Data d = <["time" := logrus.VTime 7]> (logrus.Data (writer svc_logger)) ∧
    logrus.Data d !! "time" = Some (logrus.VTime 7) ∧
    ∀ (later : Z) (msg : string),
      ∃ evs, calls (snd (lEntry_Flush p msg
                           (with_clock later (snd (lLog_Warn svc_logger empty_world))))) =
               calls empty_world ++ EvLogln d logrus.WarnLevel msg :: evs.
Proof.
  apply (constructors_stamp_time svc_logger empty_world logrus.WarnLevel lLog_Warn).
  unfold constructors. rewrite !elem_of_cons. tauto.
Defined.

Lemma load_lLog_ok (p : loc) (l : lLog) (w : World) :
  loggers w !! p = Some l → load_lLog p w = (Returned l, w).
Proof. intros Hp. unfold load_lLog. by rewrite Hp. Qed.

(** A constructor called through a pointer to a logger builds its entry
    from the logger the pointer leads to. *)
Lemma through_constructor_ok
    (lvl : logrus.Level) (mk : lLog → Go loc) (p : loc) (l : lLog) (w : World) :
  (lvl, mk) ∈ constructors →
  loggers w !! p = Some l →
  through p mk w =
    (Returned (fresh (dom (heap w))),
     with_heap (<[fresh (dom (heap w)) :=
                  {| level := lvl;
                     entry := logrus.WithField (writer l) "time" (logrus.VTime (clock w)) |}]>
                  (heap w)) w).
Proof.
  intros Hmk Hp. unfold through, mbind, Go_bind.
  rewrite (load_lLog_ok _ _ _ Hp). by apply constructor_ok.
Qed.

(** C4. [WithField key value], called on a logger, returns a new logger
    (an object at an address no logger had, so not the receiver) whose
    persistent fields are the receiver's plus that one field, and it
    changes nothing else: the receiver and every other logger are as
    they were, and so are the entries, the clock and the calls made.  An
    entry built from the receiver after the call, by any constructor and
    at any later time, carries the receiver's fields and the time stamp,
    and so does not carry the new field unless the receiver had it
    already; an entry built from the new logger carries it. *)
Theorem WithField_leaves_receiver (p : loc) (l : lLog) (key value : string) (w : World) :
  loggers w !! p = Some l →
  ∃ p' l' w',
    Logger_WithField p key value w = (Returned p', w') ∧
    w' = with_loggers (<[p' := l']> (loggers w)) w ∧
    (p' ∉ dom (loggers w)) ∧
    p' ≠ p ∧
    logrus.Owner (writer l') = logrus.Owner (writer l) ∧
    logrus.Data (writer l') = <[key := logrus.VStr value]> (logrus.Data (writer l)) ∧
    loggers w' !! p = Some l ∧
    (∀ q, q ≠ p' → loggers w' !! q = loggers w !! q) ∧
    ∀ (lvl : logrus.Level) (mk : lLog → Go loc) (later : Z),
      (lvl, mk) ∈ constructors →
      (∃ e d,
         through p mk (with_clock later w') =
           (Returned e,
            with_heap (<[e := {| level := lvl; entry := d |}]> (heap w))
              (with_clock later w')) ∧
         logrus.Data d = <["time" := logrus.VTime later]> (logrus.Data (writer l)) ∧
         (logrus.Data (writer l) !! key ≠ Some (logrus.VStr value) →
          logrus.Data d !! key ≠ Some (logrus.VStr value))) ∧
      (∃ e d,
         through p' mk (with_clock later w') =
           (Returned e,
            with_heap (<[e := {| level := lvl; entry := d |}]> (heap w))
              (with_clock later w')) ∧
         (key ≠ "time" → logrus.Data d !! key = Some (logrus.VStr value))).
Proof.
  intros Hp.
  set (p' := fresh (dom (loggers w))).
  set (l' := {| writer := logrus.WithField (writer l) key (logrus.VStr value) |}).
  set (w' := with_loggers (<[p' := l']> (loggers w)) w).
  assert (p' ∉ dom (loggers w)) as Hfresh by apply is_fresh.
  assert (p' ≠ p) as Hne.
  { intros ->. apply Hfresh, elem_of_dom. eauto. }
  assert (loggers w' !! p = Some l) as Hp'
    by (simpl; by rewrite lookup_insert_ne).
  exists p', l', w'. split.
  { unfold Logger_WithField, through, lLog_WithField, new_lLog, mbind, mret, Go_bind, Go_ret.
    by rewrite (load_lLog_ok _ _ _ Hp). }
  split; [reflexivity|]. split; [exact Hfresh|]. split; [exact Hne|].
  split; [reflexivity|]. split; [apply WithField_Data|]. split; [exact Hp'|].
  split. { intros q Hq. simpl. by rewrite lookup_insert_ne. }
  intros lvl mk later Hmk. split.
  - rewrite (through_constructor_ok lvl mk p l (with_clock later w') Hmk Hp').
    eexists _, _. split; [reflexivity|]. split; [apply WithField_Data|].
    intros Hnew. rewrite WithField_Data.
    destruct (decide (key = "time")) as [->|Hkey].
    + by rewrite lookup_insert_eq.
    + by rewrite lookup_insert_ne.
  - rewrite (through_constructor_ok lvl mk p' l' (with_clock later w') Hmk)
      by (simpl; apply lookup_insert_eq).
    eexists _, _. split; [reflexivity|].
    intros Hkey. rewrite WithField_Data, lookup_insert_ne by done.
    subst l'. simpl. by rewrite <-insert_union_singleton_l, lookup_insert_eq.
Qed.

Lemma WithField_leaves_receiver_witness :
  ∃ p' w',
    Logger_WithField 1 "env" "prod" logger_world = (Returned p', w') ∧
    p' ≠ 1%positive ∧
    loggers w' !! 1%positive = Some svc_logger ∧
    (∃ e d,
       through 1 lLog_Info (with_clock 9 w') =
         (Returned e,
          with_heap (<[e := {| level := logrus.InfoLevel; entry := d |}]> (heap logger_world))
            (with_clock 9 w')) ∧
       logrus.Data d !! "env" ≠ Some (logrus.VStr "prod")) ∧
    (∃ e d,
       through p' lLog_Info (with_clock 9 w') =
         (Returned e,
          with_heap (<[e := {| level := logrus.InfoLevel; entry := d |}]> (heap logger_world))
            (with_clock 9 w')) ∧
       logrus.Data d !! "env" = Some (logrus.VStr "prod")).
Proof.
  destruct (WithField_leaves_receiver 1 svc_logger "env" "prod" logger_world eq_refl)
    as (p' & l' & w' & Hcall & _ & _ & Hne & _ & _ & Hp & _ & Hafter).
  destruct (Hafter logrus.InfoLevel lLog_Info 9)
    as [(e1 & d1 & Hmk1 & _ & Hnot) (e2 & d2 & Hmk2 & Hhas)].
  { unfold constructors. rewrite !elem_of_cons. tauto. }
  exists p', w'. split; [exact Hcall|]. split; [exact Hne|]. split; [exact Hp|].
  split.
  - exists e1, d1. split; [exact Hmk1|]. apply Hnot. by vm_compute.
  - exists e2, d2. split; [exact Hmk2|]. apply Hhas. discriminate.
Defined.

(** ** The setters *)

Lemma entry_eta (e : lEntry) :
  {| level := level e;
     entry := {| logrus.Owner := logrus.Owner (entry e);
                 logrus.Data := logrus.Data (entry e) |} |} = e.
Proof. by destruct e as [? []]. Qed.

(** Every setter, handed no nil error, returns its receiver and replaces
    the entry's fields by the fields it sets laid over the old ones. *)
Lemma call_ok (l : loc) (e : lEntry) (c : AddCall) (w : World) :
  heap w !! l = Some e →
  non_nil c →
  call l c w =
    (Returned l,
     with_heap (<[l := {| level := level e;
                          entry := {| logrus.Owner := logrus.Owner (entry e);
                                      logrus.Data := written c ∪ logrus.Data (entry e) |} |}]>
                  (heap w)) w).
Proof.
  intros Hl Hc.
  assert (∀ k v, (with_field l k v ;; mret l) w =
            (Returned l,
             with_heap (<[l := {| level := level e;
                                  entry := logrus.WithField (entry e) k v |}]> (heap w)) w))
    as Hone.
  { intros k v. unfold mbind, Go_bind. by rewrite (with_field_ok _ _ _ _ _ Hl). }
  assert (∀ k1 v1 k2 v2,
            (with_field l k1 v1 ;; with_field l k2 v2 ;; mret l) w =
            (Returned l,
             with_heap (<[l := {| level := level e;
                                  entry := {| logrus.Owner := logrus.Owner (entry e);
                                              logrus.Data := <[k2 := v2]> {[k1 := v1]}
                                                               ∪ logrus.Data (entry e) |} |}]>
                          (heap w)) w))
    as Htwo.
  { intros k1 v1 k2 v2. unfold mbind, Go_bind.
    rewrite (with_field_ok _ _ _ _ _ Hl).
    erewrite with_field_ok by (simpl; apply lookup_insert_eq).
    unfold mret, Go_ret, with_heap; simpl.
    rewrite insert_insert_eq. unfold logrus.WithField, logrus.WithFields; simpl.
    by rewrite (assoc_L (∪)), <-insert_union_singleton_l. }
  destruct c as [fs|[ev|]|key [ev|]|key val|key val|key val|key val|key val|key val];
    simpl in *; try by destruct Hc.
  - unfold lEntry_AddFields, mbind, Go_bind.
    rewrite (load_ok _ _ _ Hl). by rewrite (set_entry_ok _ _ _ _ Hl).
  - apply Htwo.
  - apply Htwo.
  - apply Hone.
  - apply Hone.
  - apply Hone.
  - apply Hone.
  - apply Hone.
  - apply Hone.
Qed.

(** A setter handed a nil error panics at [err.Error()], before anything
    is stored. *)
Lemma call_nil (l : loc) (c : AddCall) (w : World) :
  ¬ non_nil c → call l c w = (Panicked PanicNilDeref, w).
Proof.
  destruct c as [fs|[ev|]|key [ev|]|key val|key val|key val|key val|key val|key val];
    simpl; intros Hc; try (by destruct Hc); reflexivity.
Qed.

Lemma chain_ok (cs : list AddCall) (l : loc) (e : lEntry) (w : World) :
  heap w !! l = Some e →
  Forall non_nil cs →
  ∃ d : Fields,
    chain l cs w =
      (Returned l,
       with_heap (<[l := {| level := level e;
                            entry := {| logrus.Owner := logrus.Owner (entry e);
                                        logrus.Data := d |} |}]> (heap w)) w) ∧
    ∀ k, d !! k = match latest cs k with
                  | Some v => Some v
                  | None => logrus.Data (entry e) !! k
                  end.
Proof.
  revert e w. induction cs as [|c cs IH]; intros e w Hl Hcs.
  - exists (logrus.Data (entry e)). split; [|done].
    simpl. unfold mret, Go_ret.
    by rewrite entry_eta, insert_id, with_heap_id.
  - apply Forall_cons in Hcs as [Hc Hcs].
    simpl. unfold mbind, Go_bind. rewrite (call_ok _ _ _ _ Hl Hc).
    set (e1 := {| level := level e;
                  entry := {| logrus.Owner := logrus.Owner (entry e);
                              logrus.Data := written c ∪ logrus.Data (entry e) |} |}).
    destruct (IH e1 (with_heap (<[l := e1]> (heap w)) w)) as (d & Hrun & Hd);
      [simpl; apply lookup_insert_eq | exact Hcs |].
    exists d. split.
    + rewrite Hrun. simpl. unfold with_heap; simpl. by rewrite insert_insert_eq.
    + intros k. rewrite Hd. simpl.
      destruct (latest cs k); [done|].
      rewrite lookup_union.
      by destruct (written c !! k), (logrus.Data (entry e) !! k).
Qed.

(** A chain with a setter handed a nil error panics there; no call is
    made on the backend. *)
Lemma chain_nil (cs : list AddCall) (l : loc) (e : lEntry) (w : World) :
  heap w !! l = Some e →
  ¬ Forall non_nil cs →
  ∃ w', chain l cs w = (Panicked PanicNilDeref, w') ∧ calls w' = calls w.
Proof.
  revert e w. induction cs as [|c cs IH]; intros e w Hl Hcs.
  - by destruct Hcs.
  - simpl. unfold mbind, Go_bind. destruct (decide (non_nil c)) as [Hc|Hc].
    + rewrite (call_ok _ _ _ _ Hl Hc).
      set (e1 := {| level := level e;
                    entry := {| logrus.Owner := logrus.Owner (entry e);
                                logrus.Data := written c ∪ logrus.Data (entry e) |} |}).
      destruct (IH e1 (with_heap (<[l := e1]> (heap w)) w)) as (w' & Hrun & Hcalls);
        [simpl; apply lookup_insert_eq | by intros Hcs'; apply Hcs; constructor |].
      exists w'. by rewrite Hrun.
    + rewrite (call_nil _ _ _ Hc). by exists w.
Qed.

Lemma Flush_calls (l : loc) (e : lEntry) (msg : string) (w : World) :
  heap w !! l = Some e →
  ∃ evs, calls (snd (lEntry_Flush l msg w)) =
           calls w ++ EvLogln (entry e) (level e) msg :: evs.
Proof.
  intros Hl. rewrite (Flush_ok _ _ _ _ Hl). simpl.
  case_decide; simpl; [|by eauto]. rewrite <-app_assoc. eauto.
Qed.

(** C6. Field attachment is last-write-wins for every key: after any
    chain of setters, single-field or bulk, the entry holds under a key
    the value that the latest call setting the key gave it, or what it
    held before when no call set it, and that is what [Flush] hands over.
    (A chain in which a setter is handed a nil error panics there and
    never comes to [Flush].)  In particular [AddStr k a], then
    [AddStr k b], then [Flush] hands over a record whose field [k] is
    [b]. *)
Theorem setters_last_write_wins (w : World) (l : loc) (e : lEntry) (msg : string) :
  heap w !! l = Some e →
  (∀ cs : list AddCall, Forall non_nil cs →
     ∃ w' e',
       chain l cs w = (Returned l, w') ∧
       heap w' !! l = Some e' ∧
       level e' = level e ∧
       (∀ k, logrus.Data (entry e') !! k =
               match latest cs k with
               | Some v => Some v
               | None => logrus.Data (entry e) !! k
               end) ∧
       ∃ evs, calls (snd ((p ← chain l cs; lEntry_Flush p msg) w)) =
                calls w ++ EvLogln (entry e') (level e) msg :: evs) ∧
  (∀ cs : list AddCall, ¬ Forall non_nil cs →
     ∃ w', (p ← chain l cs; lEntry_Flush p msg) w = (Panicked PanicNilDeref, w') ∧
           calls w' = calls w) ∧
  (∀ k a b : string,
     ∃ d evs,
       calls (snd ((p ← lEntry_AddStr l k a; p ← lEntry_AddStr p k b; lEntry_Flush p msg) w)) =
         calls w ++ EvLogln d (level e) msg :: evs ∧
       logrus.Data d !! k = Some (logrus.VStr b)).
Proof.
  intros Hl.
  assert (∀ cs : list AddCall, Forall non_nil cs →
     ∃ w' e',
       chain l cs w = (Returned l, w') ∧
       heap w' !! l = Some e' ∧
       level e' = level e ∧
       (∀ k, logrus.Data (entry e') !! k =
               match latest cs k with
               | Some v => Some v
               | None => logrus.Data (entry e) !! k
               end) ∧
       ∃ evs, calls (snd ((p ← chain l cs; lEntry_Flush p msg) w)) =
                calls w ++ EvLogln (entry e') (level e) msg :: evs) as Hgen.
  { intros cs Hcs. destruct (chain_ok cs l e w Hl Hcs) as (d & Hrun & Hd).
    eexists _, _. split; [exact Hrun|].
    split; [simpl; apply lookup_insert_eq|]. split; [reflexivity|].
    split; [exact Hd|].
    unfold mbind, Go_bind. rewrite Hrun.
    set (e1 := {| level := level e;
                  entry := {| logrus.Owner := logrus.Owner (entry e);
                              logrus.Data := d |} |}).
    destruct (Flush_calls l e1 msg (with_heap (<[l := e1]> (heap w)) w)) as [evs Hevs];
      [simpl; apply lookup_insert_eq|].
    exists evs. rewrite Hevs. reflexivity. }
  split; [exact Hgen|]. split.
  { intros cs Hcs. destruct (chain_nil cs l e w Hl Hcs) as (w' & Hrun & Hcalls).
    exists w'. unfold mbind, Go_bind. by rewrite Hrun. }
  intros k a b.
  destruct (Hgen [CStr k a; CStr k b]) as (w' & e' & _ & _ & _ & Hk & evs & Hevs).
  { repeat constructor. }
  exists (entry e'), evs. split.
  - rewrite <-Hevs. simpl. unfold mbind, Go_bind.
    by destruct (lEntry_AddStr l k a w) as [[] ?];
      [destruct (lEntry_AddStr _ k b _) as [[] ?]|..].
  - rewrite Hk. simpl. by rewrite lookup_singleton_eq.
Qed.

Lemma setters_last_write_wins_witness :
  ∃ d evs,
    calls (snd ((p ← lEntry_AddStr 1 "k" "a"; p ← lEntry_AddStr p "k" "b";
                 lEntry_Flush p "done") (one_entry_world logrus.InfoLevel))) =
      calls (one_entry_world logrus.InfoLevel) ++ EvLogln d logrus.InfoLevel "done" :: evs ∧
    logrus.Data d !! "k" = Some (logrus.VStr "b").
Proof.
  destruct (setters_last_write_wins (one_entry_world logrus.InfoLevel) 1
              (svc_entry logrus.InfoLevel) "done" eq_refl) as (_ & _ & Hab).
  exact (Hab "k" "a" "b").
Defined.

(** ** Errors as fields *)

Lemma key_ne_stack_key (key : string) : key ≠ key +:+ "_stack".
Proof.
  intros Heq. assert (key +:+ "" = key +:+ "_stack") as Happ.
  { rewrite <-Heq. clear Heq. induction key as [|a key IH]; [done|].
    unfold String.append; fold String.append. by rewrite IH. }
  by apply (inj (String.append key)) in Happ.
Qed.

Lemma AddError_ok (l : loc) (e : lEntry) (key : string) (ev : error_value) (w : World) :
  heap w !! l = Some e →
  lEntry_AddError l key (Some ev) w =
    (Returned l,
     with_heap (<[l := {| level := level e;
                          entry := {| logrus.Owner := logrus.Owner (entry e);
                                      logrus.Data :=
                                        <[key +:+ "_stack" := logrus.VStr (ErrorStack ev)]>
                                          (<[key := logrus.VStr (Error ev)]>
                                             (logrus.Data (entry e))) |} |}]>
                  (heap w)) w).
Proof.
  intros Hl. change (lEntry_AddError l key (Some ev)) with (call l (CError key (Some ev))).
  rewrite (call_ok _ _ _ _ Hl) by (simpl; eauto). simpl.
  by rewrite <-insert_union_l, <-insert_union_singleton_l.
Qed.

(** [AddErr err] and [AddError "err" err] are the same computation. *)
Lemma AddErr_is_AddError (l : loc) (err : error) :
  lEntry_AddErr l err = lEntry_AddError l "err" err.
Proof. reflexivity. Qed.

(** C7 as stated fails at the nil error: [AddErr(nil)] panics at
    [err.Error()] and attaches nothing. *)
Lemma AddErr_nil_panics :
  lEntry_AddErr 1 None (one_entry_world logrus.InfoLevel) =
    (Panicked PanicNilDeref, one_entry_world logrus.InfoLevel) ∧
  (e ← heap (one_entry_world logrus.InfoLevel) !! 1%positive;
   logrus.Data (entry e) !! "err") = None.
Proof. split; reflexivity. Qed.

(** C7, amended. For every non-nil error [ev], [AddErr] attaches exactly
    two fields to the entry: "err", the error's message, and "err_stack",
    the text of the stack-extraction utility for it; every other field is
    as it was, and "err_stack" is present also when that text is empty. *)
Theorem AddErr_attaches_err_and_stack (w : World) (l : loc) (e : lEntry) (ev : error_value) :
  heap w !! l = Some e →
  ∃ e',
    lEntry_AddErr l (Some ev) w = (Returned l, with_heap (<[l := e']> (heap w)) w) ∧
    level e' = level e ∧
    logrus.Data (entry e') =
      <["err_stack" := logrus.VStr (ErrorStack ev)]>
        (<["err" := logrus.VStr (Error ev)]> (logrus.Data (entry e))) ∧
    logrus.Data (entry e') !! "err" = Some (logrus.VStr (Error ev)) ∧
    logrus.Data (entry e') !! "err_stack" = Some (logrus.VStr (ErrorStack ev)) ∧
    (∀ k, k ≠ "err" → k ≠ "err_stack" →
          logrus.Data (entry e') !! k = logrus.Data (entry e) !! k) ∧
    (ErrorStack ev = "" → logrus.Data (entry e') !! "err_stack" = Some (logrus.VStr "")).
Proof.
  intros Hl. rewrite AddErr_is_AddError, (AddError_ok _ _ _ _ _ Hl).
  eexists. split; [reflexivity|]. simpl. split; [reflexivity|]. split; [reflexivity|].
  change ("err" +:+ "_stack") with "err_stack".
  split; [by rewrite lookup_insert_ne, lookup_insert_eq|].
  split; [by rewrite lookup_insert_eq|].
  split.
  - intros k Hk1 Hk2. by rewrite !lookup_insert_ne.
  - intros ->. by rewrite lookup_insert_eq.
Qed.

Lemma AddErr_attaches_err_and_stack_witness :
  ∃ e',
    lEntry_AddErr 1 (Some bare_error) (one_entry_world logrus.ErrorLevel) =
      (Returned 1%positive,
       with_heap (<[1%positive := e']> (heap (one_entry_world logrus.ErrorLevel)))
         (one_entry_world logrus.ErrorLevel)) ∧
    logrus.Data (entry e') !! "err" = Some (logrus.VStr "boom") ∧
    logrus.Data (entry e') !! "err_stack" = Some (logrus.VStr "").
Proof.
  destruct (AddErr_attaches_err_and_stack (one_entry_world logrus.ErrorLevel) 1
              (svc_entry logrus.ErrorLevel) bare_error eq_refl)
    as (e' & Hcall & _ & _ & Herr & _ & _ & Hempty).
  exists e'. split; [exact Hcall|]. split; [exact Herr|]. apply Hempty. reflexivity.
Defined.

(** C8 as stated fails at the nil error: [AddError(key, nil)] panics at
    [val.Error()] and attaches nothing. *)
Lemma AddError_nil_panics :
  lEntry_AddError 1 "cause" None (one_entry_world logrus.InfoLevel) =
    (Panicked PanicNilDeref, one_entry_world logrus.InfoLevel) ∧
  (e ← heap (one_entry_world logrus.InfoLevel) !! 1%positive;
   logrus.Data (entry e) !! "cause") = None.
Proof. split; reflexivity. Qed.

(** C8, amended. For every key and every non-nil error [ev], [AddError]
    attaches the field [key], the error's message, and the field
    [key + "_stack"], the extracted trace text, and leaves every other
    field as it was; and for every error, nil or not, [AddErr err] does
    exactly what [AddError "err" err] does. *)
Theorem AddError_attaches_key_and_stack
    (w : World) (l : loc) (e : lEntry) (key : string) (ev : error_value) :
  heap w !! l = Some e →
  (∃ e',
     lEntry_AddError l key (Some ev) w = (Returned l, with_heap (<[l := e']> (heap w)) w) ∧
     level e' = level e ∧
     logrus.Data (entry e') !! key = Some (logrus.VStr (Error ev)) ∧
     logrus.Data (entry e') !! (key +:+ "_stack") = Some (logrus.VStr (ErrorStack ev)) ∧
     (∀ k, k ≠ key → k ≠ key +:+ "_stack" →
           logrus.Data (entry e') !! k = logrus.Data (entry e) !! k)) ∧
  (∀ err : error, lEntry_AddErr l err w = lEntry_AddError l "err" err w).
Proof.
  intros Hl. split; [|by intros err; rewrite AddErr_is_AddError].
  rewrite (AddError_ok _ _ _ _ _ Hl).
  eexists. split; [reflexivity|]. simpl. split; [reflexivity|].
  pose proof (key_ne_stack_key key) as Hne.
  split; [by rewrite lookup_insert_ne, lookup_insert_eq|].
  split; [by rewrite lookup_insert_eq|].
  intros k Hk1 Hk2. by rewrite !lookup_insert_ne.
Qed.

Lemma AddError_attaches_key_and_stack_witness :
  ∃ e',
    lEntry_AddError 1 "cause" (Some traced_error) (one_entry_world logrus.ErrorLevel) =
      (Returned 1%positive,
       with_heap (<[1%positive := e']> (heap (one_entry_world logrus.ErrorLevel)))
         (one_entry_world logrus.ErrorLevel)) ∧
    logrus.Data (entry e') !! "cause" = Some (logrus.VStr "open: no such file") ∧
    logrus.Data (entry e') !! "cause_stack" =
      Some (logrus.VStr "main.go:12: open: no such file").
Proof.
  destruct (AddError_attaches_key_and_stack (one_entry_world logrus.ErrorLevel) 1
              (svc_entry logrus.ErrorLevel) "cause" traced_error eq_refl)
    as [(e' & Hcall & _ & Hmsg & Hstack & _) _].
  exists e'. split; [exact Hcall|]. split; [exact Hmsg | exact Hstack].
Defined.

(** ** The time stamp *)

(** A field map holds a key once or not at all. *)
Lemma count_key_lookup (k : string) (m : Fields) :
  count_key k m = match m !! k with Some _ => 1%nat | None => 0%nat end.
Proof.
  unfold count_key. induction m as [|i x m Hi IH] using map_ind.
  - by rewrite map_to_list_empty, lookup_empty.
  - rewrite map_to_list_insert by done. rewrite filter_cons. simpl.
    destruct (decide (i = k)) as [->|Hne].
    + rewrite lookup_insert_eq. simpl. rewrite IH, Hi. done.
    + rewrite lookup_insert_ne by done. exact IH.
Qed.

(** C9 as stated fails when a setter is given the key "time": the value
    of the construction stamp is replaced by the setter's. *)
Lemma AddAny_overwrites_time :
  (e ← heap (snd ((p ← lLog_Info svc_logger; lEntry_AddAny p "time" (logrus.VStr "later"))
                    empty_world)) !! 1%positive;
   logrus.Data (entry e) !! "time") = Some (logrus.VStr "later") ∧
  logrus.VStr "later" ≠ logrus.VTime (clock empty_world) ∧
  (∃ evs,
     calls (snd ((p ← lLog_Info svc_logger;
                  p ← lEntry_AddAny p "time" (logrus.VStr "later");
                  lEntry_Flush p "hello") empty_world)) =
       EvLogln (logrus.WithField
                  (logrus.WithField (writer svc_logger) "time" (logrus.VTime 7))
                  "time" (logrus.VStr "later"))
         logrus.InfoLevel "hello" :: evs).
Proof.
  split; [by vm_compute|]. split; [discriminate|].
  exists []. reflexivity.
Qed.

(** C9, amended. Every entry, from its construction through every setter
    (handed no nil error) up to and including [Flush], carries exactly one
    "time" field.  Its value is the time stamped at the entry's
    construction unless a setter was given the key "time", in which case
    it is what the latest such setter gave; [Flush] hands over the entry
    with that field, whatever the clock reads by then. *)
Theorem entry_keeps_one_time_field
    (l : lLog) (w : World) (lvl : logrus.Level) (mk : lLog → Go loc)
    (cs : list AddCall) (msg : string) (later : Z) :
  (lvl, mk) ∈ constructors →
  Forall non_nil cs →
  ∃ p w' e',
    (p ← mk l; chain p cs) w = (Returned p, w') ∧
    heap w' !! p = Some e' ∧
    level e' = lvl ∧
    count_key "time" (logrus.Data (entry e')) = 1%nat ∧
    logrus.Data (entry e') !! "time" =
      Some (default (logrus.VTime (clock w)) (latest cs "time")) ∧
    (latest cs "time" = None →
     logrus.Data (entry e') !! "time" = Some (logrus.VTime (clock w))) ∧
    ∃ evs, calls (snd (lEntry_Flush p msg (with_clock later w'))) =
             calls w ++ EvLogln (entry e') lvl msg :: evs.
Proof.
  intros Hmk Hcs. unfold mbind, Go_bind. rewrite (constructor_ok _ _ l w Hmk).
  set (p := fresh (dom (heap w))).
  set (e0 := {| level := lvl;
                entry := logrus.WithField (writer l) "time" (logrus.VTime (clock w)) |}).
  destruct (chain_ok cs p e0 (with_heap (<[p := e0]> (heap w)) w)) as (d & Hrun & Hd);
    [simpl; apply lookup_insert_eq | exact Hcs |].
  set (e' := {| level := level e0;
                entry := {| logrus.Owner := logrus.Owner (entry e0);
                            logrus.Data := d |} |}) in *.
  assert (d !! "time" = Some (default (logrus.VTime (clock w)) (latest cs "time"))) as Htime.
  { rewrite Hd. destruct (latest cs "time"); [done|].
    simpl. by rewrite <-insert_union_singleton_l, lookup_insert_eq. }
  exists p, (with_heap (<[p := e']> (heap w)) w), e'.
  split. { rewrite Hrun. simpl. unfold with_heap; simpl. by rewrite insert_insert_eq. }
  split; [simpl; apply lookup_insert_eq|]. split; [reflexivity|].
  split. { rewrite count_key_lookup. simpl. by rewrite Htime. }
  split; [exact Htime|].
  split. { intros Hnone. simpl. by rewrite Htime, Hnone. }
  destruct (Flush_calls p e' msg (with_clock later (with_heap (<[p := e']> (heap w)) w)))
    as [evs Hevs]; [simpl; apply lookup_insert_eq|].
  exists evs. exact Hevs.
Qed.

Lemma entry_keeps_one_time_field_witness :
  ∃ p w' e',
    (p ← lLog_Error svc_logger;
     chain p [CInt "n" 5; CErr (Some traced_error)]) empty_world = (Returned p, w') ∧
    heap w' !! p = Some e' ∧
    count_key "time" (logrus.Data (entry e')) = 1%nat ∧
    logrus.Data (entry e') !! "time" = Some (logrus.VTime 7) ∧
    ∃ evs, calls (snd (lEntry_Flush p "failed" (with_clock 9 w'))) =
             EvLogln (entry e') logrus.ErrorLevel "failed" :: evs.
Proof.
  destruct (entry_keeps_one_time_field svc_logger empty_world logrus.ErrorLevel lLog_Error
              [CInt "n" 5; CErr (Some traced_error)] "failed" 9)
    as (p & w' & e' & Hrun & Hp & _ & Hone & _ & Hstamp & Hflush).
  { unfold constructors. rewrite !elem_of_cons. tauto. }
  { repeat constructor; simpl; eauto. }
  exists p, w', e'. split; [exact Hrun|]. split; [exact Hp|]. split; [exact Hone|].
  split; [apply Hstamp; reflexivity | exact Hflush].
Defined.

(** ** A whole chain, from the construction of the logger to the write *)

(** [newLogrus(buf, InfoLevel).WithField("svc","x").Info().AddInt("n",5)
    .Flush("started")] hands the backend one record: level Info, message
    "started", fields svc, time and n. *)
Example started_scenario :
  (lg ← @newLogrus iota_levels 0 1;
   lg ← lLog_WithField lg "svc" "x";
   p ← lLog_Info lg;
   p ← lEntry_AddInt p "n" 5;
   lEntry_Flush p "started") empty_world
  = (Returned (),
     {| clock := 7;
        loggers := ∅;
        heap := {[ 1%positive :=
                   {| level := logrus.InfoLevel;
                      entry := {| logrus.Owner := {| logrus.Out := 0;
                                                     logrus.Threshold := logrus.InfoLevel |};
                                  logrus.Data := {[ "svc" := logrus.VStr "x";
                                                    "time" := logrus.VTime 7;
                                                    "n" := logrus.VInt 5 ]} |} |} ]};
        calls := [ EvLogln {| logrus.Owner := {| logrus.Out := 0;
                                                 logrus.Threshold := logrus.InfoLevel |};
                              logrus.Data := {[ "svc" := logrus.VStr "x";
                                                "time" := logrus.VTime 7;
                                                "n" := logrus.VInt 5 ]} |}
                     logrus.InfoLevel "started" ] |}).
Proof. by vm_compute. Qed.

(** A logger cannot be built at a level outside the enumeration: the
    level mapping panics. *)
Example newLogrus_unmapped :
  @newLogrus iota_levels 0 6 empty_world =
    (Panicked (PanicString "Can't map level 6 to logrus level"), empty_world).
Proof. reflexivity. Qed.

(** * Further properties of logrus.go *)

(** ** Building a logger *)

(** X1. [newLogrus] builds a logger exactly for the members of the
    enumeration: the logger writes to the given sink, has the threshold
    [ltolr] maps the level to, and carries no field; for any other level
    no logger is built, the level mapping panics. *)
Theorem newLogrus_builds_or_panics `{LevelDecl} (sink : N) (lvl : Z) (w : World) :
  (lvl ∈ members →
     ∃ lr, ltolr lvl w = (Returned lr, w) ∧
           newLogrus sink lvl w =
             (Returned {| writer := {| logrus.Owner := {| logrus.Out := sink;
                                                          logrus.Threshold := lr |};
                                       logrus.Data := ∅ |} |}, w)) ∧
  (lvl ∉ members →
     newLogrus sink lvl w =
       (Panicked (PanicString ("Can't map level " +:+ pretty lvl +:+ " to logrus level")), w)).
Proof.
  split.
  - unfold members. rewrite !elem_of_cons, elem_of_nil. intros Hin.
    unfold newLogrus, ltolr, mbind, Go_bind.
    repeat case_decide; try (eexists; split; reflexivity). tauto.
  - intros (?&?&?&?&?&?)%not_member.
    unfold newLogrus, ltolr, mbind, Go_bind.
    repeat case_decide; first [congruence | reflexivity].
Qed.

Lemma newLogrus_builds_or_panics_witness :
  (∃ lr, @ltolr iota_levels 2 empty_world = (Returned lr, empty_world) ∧
         @newLogrus iota_levels 0 2 empty_world =
           (Returned {| writer := {| logrus.Owner := {| logrus.Out := 0;
                                                        logrus.Threshold := lr |};
                                     logrus.Data := ∅ |} |}, empty_world)) ∧
  @newLogrus iota_levels 0 (-1) empty_world =
    (Panicked (PanicString "Can't map level -1 to logrus level"), empty_world).
Proof.
  destruct (@newLogrus_builds_or_panics iota_levels 0 2 empty_world) as [Hin _].
  destruct (@newLogrus_builds_or_panics iota_levels 0 (-1) empty_world) as [_ Hout].
  split.
  - apply Hin. apply (bool_decide_unpack _). by vm_compute.
  - apply Hout. apply (bool_decide_unpack _). by vm_compute.
Defined.

(** X2. The generic dispatch and the level mapping agree: whenever
    [ltolr] maps a level, [Level] builds the entry at that backend level,
    and where [ltolr] panics, [Level] builds it at Info.  [Level] itself
    never panics. *)
Theorem Level_agrees_with_ltolr `{LevelDecl} (l : lLog) (lvl : Z) (w : World) :
  ∃ p lv,
    lLog_Level l lvl w =
      (Returned p,
       with_heap (<[p := {| level := lv;
                            entry := logrus.WithField (writer l) "time"
                                       (logrus.VTime (clock w)) |}]> (heap w)) w) ∧
    (p ∉ dom (heap w)) ∧
    (∀ lr, ltolr lvl w = (Returned lr, w) → lv = lr) ∧
    (∀ v, ltolr lvl w = (Panicked v, w) → lv = logrus.InfoLevel).
Proof.
  exists (fresh (dom (heap w))).
  unfold lLog_Level, ltolr.
  repeat case_decide;
    (eexists; split; [reflexivity|]; split; [apply is_fresh|];
     split; [intros lr Heq | intros v Heq]);
    by inversion Heq.
Qed.

(** ** Child loggers *)

(** X3. Attaching the same key twice to a logger keeps the later value:
    [l.WithField(k, a).WithField(k, b)] is the logger [l.WithField(k, b)]. *)
Theorem WithField_last_attached_wins (l : lLog) (k a b : string) (w : World) :
  (lg ← lLog_WithField l k a; lLog_WithField lg k b) w = lLog_WithField l k b w.
Proof.
  unfold lLog_WithField, mbind, mret, Go_bind, Go_ret,
    logrus.WithField, logrus.WithFields; simpl.
  by rewrite <-!insert_union_singleton_l, insert_insert_eq.
Qed.

(** X4. Attaching two different keys to a logger gives the same logger in
    either order. *)
Theorem WithField_distinct_keys_commute (l : lLog) (k1 k2 a b : string) (w : World) :
  k1 ≠ k2 →
  (lg ← lLog_WithField l k1 a; lLog_WithField lg k2 b) w =
  (lg ← lLog_WithField l k2 b; lLog_WithField lg k1 a) w.
Proof.
  intros Hne.
  unfold lLog_WithField, mbind, mret, Go_bind, Go_ret,
    logrus.WithField, logrus.WithFields; simpl.
  rewrite <-!insert_union_singleton_l.
  by rewrite (insert_insert_ne _ k2 k1) by done.
Qed.

Lemma WithField_distinct_keys_commute_witness :
  (lg ← lLog_WithField root_logger "svc" "x"; lLog_WithField lg "env" "prod") empty_world =
  (lg ← lLog_WithField root_logger "env" "prod"; lLog_WithField lg "svc" "x") empty_world.
Proof.
  apply (WithField_distinct_keys_commute root_logger "svc" "env" "x" "prod" empty_world).
  discriminate.
Defined.

(** X5. A field attached to a logger is in every entry built from the
    child logger, under its key and with its value, unless the key is
    "time": there the entry holds the time stamp of its construction.
    Every other field of the entry is the parent's. *)
Theorem child_field_reaches_entries
    (l : lLog) (key value : string) (lvl : logrus.Level) (mk : lLog → Go loc) (w : World) :
  (lvl, mk) ∈ constructors →
  ∃ p d,
    (lg ← lLog_WithField l key value; mk lg) w =
      (Returned p, with_heap (<[p := {| level := lvl; entry := d |}]> (heap w)) w) ∧
    logrus.Data d !! "time" = Some (logrus.VTime (clock w)) ∧
    (key ≠ "time" → logrus.Data d !! key = Some (logrus.VStr value)) ∧
    (∀ k, k ≠ "time" → k ≠ key → logrus.Data d !! k = logrus.Data (writer l) !! k).
Proof.
  intros Hmk. unfold lLog_WithField, mbind, mret, Go_bind, Go_ret.
  rewrite (constructor_ok _ _ _ w Hmk).
  eexists _, _. split; [reflexivity|].
  rewrite !WithField_Data. simpl. rewrite <-insert_union_singleton_l.
  split; [apply lookup_insert_eq|]. split.
  - intros Hne. by rewrite lookup_insert_ne, lookup_insert_eq.
  - intros k Hk1 Hk2. by rewrite !lookup_insert_ne.
Qed.

Lemma child_field_reaches_entries_witness :
  ∃ p d,
    (lg ← lLog_WithField root_logger "time" "noon"; lLog_Info lg) empty_world =
      (Returned p,
       with_heap (<[p := {| level := logrus.InfoLevel; entry := d |}]> (heap empty_world))
         empty_world) ∧
    logrus.Data d !! "time" = Some (logrus.VTime 7).
Proof.
  destruct (child_field_reaches_entries root_logger "time" "noon" logrus.InfoLevel
              lLog_Info empty_world) as (p & d & Hrun & Htime & _).
  { unfold constructors. rewrite !elem_of_cons. tauto. }
  exists p, d. split; [exact Hrun | exact Htime].
Defined.

(** ** What the setters leave alone *)

(** X6. A chain of setters (none handed a nil error) touches the fields
    of its own entry and nothing else: the entry keeps its level and its
    logger, every other entry is as it was, the clock is not read or
    moved, and no call is made on the backend or on [os.Exit]. *)
Theorem setters_touch_only_fields (w : World) (l : loc) (e : lEntry) (cs : list AddCall) :
  heap w !! l = Some e →
  Forall non_nil cs →
  ∃ w' e',
    chain l cs w = (Returned l, w') ∧
    heap w' !! l = Some e' ∧
    level e' = level e ∧
    logrus.Owner (entry e') = logrus.Owner (entry e) ∧
    (∀ l', l' ≠ l → heap w' !! l' = heap w !! l') ∧
    clock w' = clock w ∧
    calls w' = calls w.
Proof.
  intros Hl Hcs. destruct (chain_ok cs l e w Hl Hcs) as (d & Hrun & _).
  eexists _, _. split; [exact Hrun|]. simpl.
  split; [apply lookup_insert_eq|]. split; [reflexivity|]. split; [reflexivity|].
  split; [|done]. intros l' Hne. by rewrite lookup_insert_ne.
Qed.

Lemma setters_touch_only_fields_witness :
  ∃ w' e',
    chain 1 [CBool "ok" true; CDur "took" 250] (one_entry_world logrus.DebugLevel) =
      (Returned 1%positive, w') ∧
    heap w' !! 1%positive = Some e' ∧
    level e' = logrus.DebugLevel ∧
    calls w' = [].
Proof.
  destruct (setters_touch_only_fields (one_entry_world logrus.DebugLevel) 1
              (svc_entry logrus.DebugLevel) [CBool "ok" true; CDur "took" 250] eq_refl)
    as (w' & e' & Hrun & Hl & Hlevel & _ & _ & _ & Hcalls).
  { repeat constructor. }
  exists w', e'. split; [exact Hrun|]. split; [exact Hl|].
  split; [exact Hlevel | exact Hcalls].
Defined.

(** X7. Through a pointer to no entry every setter and [Flush] panic with
    a nil dereference; nothing is stored and the backend is not called. *)
Theorem nil_receiver_panics (w : World) (l : loc) (c : AddCall) (msg : string) :
  heap w !! l = None →
  call l c w = (Panicked PanicNilDeref, w) ∧
  lEntry_Flush l msg w = (Panicked PanicNilDeref, w).
Proof.
  intros Hl. split.
  - destruct c as [fs|[ev|]|key [ev|]|key val|key val|key val|key val|key val|key val];
      simpl;
      unfold lEntry_AddFields, lEntry_AddErr, lEntry_AddError, lEntry_AddBool,
        lEntry_AddInt, lEntry_AddStr, lEntry_AddTime, lEntry_AddDur, lEntry_AddAny,
        error_Error, load, mbind, mret, Go_bind, Go_ret, panic;
      rewrite ?with_field_nil by done; rewrite ?Hl; reflexivity.
  - unfold lEntry_Flush, load, mbind, Go_bind. by rewrite Hl.
Qed.

Lemma nil_receiver_panics_witness :
  call 3 (CStr "k" "v") (one_entry_world logrus.InfoLevel) =
    (Panicked PanicNilDeref, one_entry_world logrus.InfoLevel) ∧
  lEntry_Flush 3 "lost" (one_entry_world logrus.InfoLevel) =
    (Panicked PanicNilDeref, one_entry_world logrus.InfoLevel).
Proof.
  apply (nil_receiver_panics (one_entry_world logrus.InfoLevel) 3 (CStr "k" "v") "lost").
  reflexivity.
Defined.

(** ** Bulk fields *)

(** X8. [AddFields fs] returns its receiver with every key of [fs] set to
    the value [fs] gives it, over whatever the entry held, and every
    other field kept; with an empty (or nil) map the fields are as they
    were. *)
Theorem AddFields_overrides_and_keeps (w : World) (l : loc) (e : lEntry) (fs : Fields) :
  heap w !! l = Some e →
  ∃ e',
    lEntry_AddFields l fs w = (Returned l, with_heap (<[l := e']> (heap w)) w) ∧
    level e' = level e ∧
    (∀ k v, fs !! k = Some v → logrus.Data (entry e') !! k = Some v) ∧
    (∀ k, fs !! k = None → logrus.Data (entry e') !! k = logrus.Data (entry e) !! k) ∧
    (fs = ∅ → logrus.Data (entry e') = logrus.Data (entry e)).
Proof.
  intros Hl. change (lEntry_AddFields l fs) with (call l (CFields fs)).
  rewrite (call_ok _ _ _ _ Hl) by done.
  eexists. split; [reflexivity|]. simpl. split; [reflexivity|].
  split; [|split].
  - intros k v Hk. by apply lookup_union_Some_l.
  - intros k Hk. by rewrite lookup_union_r.
  - intros ->. by rewrite (left_id_L ∅ (∪)).
Qed.

Lemma AddFields_overrides_and_keeps_witness :
  ∃ e',
    lEntry_AddFields 1 {[ "svc" := logrus.VInt 3 ]} (one_entry_world logrus.InfoLevel) =
      (Returned 1%positive,
       with_heap (<[1%positive := e']> (heap (one_entry_world logrus.InfoLevel)))
         (one_entry_world logrus.InfoLevel)) ∧
    logrus.Data (entry e') !! "svc" = Some (logrus.VInt 3).
Proof.
  destruct (AddFields_overrides_and_keeps (one_entry_world logrus.InfoLevel) 1
              (svc_entry logrus.InfoLevel) {[ "svc" := logrus.VInt 3 ]} eq_refl)
    as (e' & Hrun & _ & Hset & _).
  exists e'. split; [exact Hrun|]. apply Hset. apply lookup_singleton_eq.
Defined.

Lemma latest_CAny (kvs : list (string * logrus.Value)) (k : string) :
  NoDup kvs.*1 →
  latest ((λ kv, CAny kv.1 kv.2) <$> kvs) k = (list_to_map kvs : Fields) !! k.
Proof.
  induction kvs as [|[i x] kvs IH]; intros Hnd; [done|].
  rewrite fmap_cons in Hnd. apply NoDup_cons in Hnd as [Hi Hnd].
  rewrite fmap_cons, list_to_map_cons. cbn [latest]. rewrite (IH Hnd).
  cbn [written fst snd].
  destruct (decide (i = k)) as [->|Hne].
  - rewrite lookup_insert_eq.
    by rewrite (not_elem_of_list_to_map_1 _ _ Hi), lookup_singleton_eq.
  - rewrite lookup_insert_ne by done. rewrite lookup_singleton_ne by done.
    by destruct (list_to_map kvs !! k).
Qed.

(** X9. [AddFields fs] does what one [AddAny] per field of [fs] does:
    the bulk call and the chain of single calls end in the same world. *)
Theorem AddFields_is_chain_of_AddAny (w : World) (l : loc) (e : lEntry) (fs : Fields) :
  heap w !! l = Some e →
  chain l (fields_calls fs) w = lEntry_AddFields l fs w.
Proof.
  intros Hl.
  destruct (chain_ok (fields_calls fs) l e w Hl) as (d & Hrun & Hd).
  { unfold fields_calls. apply Forall_fmap, Forall_true. by intros []. }
  rewrite Hrun.
  change (lEntry_AddFields l fs) with (call l (CFields fs)).
  rewrite (call_ok _ _ _ _ Hl) by done. simpl.
  do 5 f_equal. apply map_eq. intros k. rewrite Hd. unfold fields_calls.
  rewrite latest_CAny by apply NoDup_fst_map_to_list.
  rewrite list_to_map_to_list, lookup_union.
  by destruct (fs !! k), (logrus.Data (entry e) !! k).
Qed.

Lemma AddFields_is_chain_of_AddAny_witness :
  chain 1 (fields_calls {[ "a" := logrus.VInt 1; "b" := logrus.VBool true ]})
    (one_entry_world logrus.InfoLevel) =
  lEntry_AddFields 1 {[ "a" := logrus.VInt 1; "b" := logrus.VBool true ]}
    (one_entry_world logrus.InfoLevel).
Proof.
  apply (AddFields_is_chain_of_AddAny (one_entry_world logrus.InfoLevel) 1
           (svc_entry logrus.InfoLevel)).
  reflexivity.
Defined.

(** ** How setters compose *)

Lemma two_calls_ok (l : loc) (e : lEntry) (c1 c2 : AddCall) (w : World) :
  heap w !! l = Some e →
  non_nil c1 →
  non_nil c2 →
  chain l [c1; c2] w =
    (Returned l,
     with_heap (<[l := {| level := level e;
                          entry := {| logrus.Owner := logrus.Owner (entry e);
                                      logrus.Data :=
                                        written c2 ∪ (written c1 ∪ logrus.Data (entry e)) |} |}]>
                  (heap w)) w).
Proof.
  intros Hl H1 H2. simpl. unfold mbind, mret, Go_bind, Go_ret.
  rewrite (call_ok _ _ _ _ Hl H1).
  erewrite call_ok; [|simpl; apply lookup_insert_eq|exact H2].
  simpl. unfold with_heap; simpl. by rewrite insert_insert_eq.
Qed.

(** X10. Two setters that set no key in common can be called in either
    order: the entry ends with the same fields. *)
Theorem setters_on_distinct_keys_commute (w : World) (l : loc) (e : lEntry) (c1 c2 : AddCall) :
  heap w !! l = Some e →
  non_nil c1 →
  non_nil c2 →
  written c1 ##ₘ written c2 →
  chain l [c1; c2] w = chain l [c2; c1] w.
Proof.
  intros Hl H1 H2 Hdisj.
  rewrite (two_calls_ok _ _ _ _ _ Hl H1 H2), (two_calls_ok _ _ _ _ _ Hl H2 H1).
  by rewrite !(assoc_L (∪)), (map_union_comm (written c2) (written c1)).
Qed.

Lemma setters_on_distinct_keys_commute_witness :
  chain 1 [CStr "user" "ann"; CErr (Some traced_error)] (one_entry_world logrus.ErrorLevel) =
  chain 1 [CErr (Some traced_error); CStr "user" "ann"] (one_entry_world logrus.ErrorLevel).
Proof.
  apply (setters_on_distinct_keys_commute (one_entry_world logrus.ErrorLevel) 1
           (svc_entry logrus.ErrorLevel)).
  - reflexivity.
  - exact I.
  - simpl. eauto.
  - apply map_disjoint_singleton_l. reflexivity.
Defined.

(** X11. Calling the same setter with the same arguments twice in a row
    is the same as calling it once. *)
Theorem setter_twice_is_once (w : World) (l : loc) (e : lEntry) (c : AddCall) :
  heap w !! l = Some e →
  non_nil c →
  chain l [c; c] w = chain l [c] w.
Proof.
  intros Hl Hc. rewrite (two_calls_ok _ _ _ _ _ Hl Hc Hc).
  simpl. unfold mbind, mret, Go_bind, Go_ret. rewrite (call_ok _ _ _ _ Hl Hc).
  by rewrite (assoc_L (∪)), (idemp_L (∪)).
Qed.

Lemma setter_twice_is_once_witness :
  chain 1 [CTime "at" 5; CTime "at" 5] (one_entry_world logrus.InfoLevel) =
  chain 1 [CTime "at" 5] (one_entry_world logrus.InfoLevel).
Proof.
  apply (setter_twice_is_once (one_entry_world logrus.InfoLevel) 1
           (svc_entry logrus.InfoLevel)); [reflexivity | exact I].
Defined.

(** ** Entries side by side *)

(** X12. Two entries built from one logger are separate objects: setters
    called on the first leave the second with exactly what its
    constructor gave it. *)
Theorem entries_are_independent
    (l : lLog) (w : World) (lvl1 lvl2 : logrus.Level) (mk1 mk2 : lLog → Go loc)
    (cs : list AddCall) :
  (lvl1, mk1) ∈ constructors →
  (lvl2, mk2) ∈ constructors →
  Forall non_nil cs →
  ∃ p1 p2 w',
    (p1 ← mk1 l; p2 ← mk2 l; chain p1 cs ;; mret (p1, p2)) w = (Returned (p1, p2), w') ∧
    p1 ≠ p2 ∧
    heap w' !! p2 =
      Some {| level := lvl2;
              entry := logrus.WithField (writer l) "time" (logrus.VTime (clock w)) |}.
Proof.
  intros Hmk1 Hmk2 Hcs. unfold mbind, mret, Go_bind, Go_ret.
  rewrite (constructor_ok _ _ l w Hmk1).
  set (p1 := fresh (dom (heap w))).
  set (e1 := {| level := lvl1;
                entry := logrus.WithField (writer l) "time" (logrus.VTime (clock w)) |}).
  rewrite (constructor_ok _ _ l _ Hmk2). simpl.
  set (p2 := fresh (dom (<[p1 := e1]> (heap w)))).
  set (e2 := {| level := lvl2;
                entry := logrus.WithField (writer l) "time" (logrus.VTime (clock w)) |}).
  assert (p1 ≠ p2) as Hne.
  { intros Heq. apply (is_fresh (dom (<[p1 := e1]> (heap w)))).
    fold p2. rewrite <-Heq, dom_insert_L.
    by apply elem_of_union_l, elem_of_singleton. }
  destruct (chain_ok cs p1 e1
              (with_heap (<[p2 := e2]> (<[p1 := e1]> (heap w))) (with_heap (<[p1 := e1]> (heap w)) w)))
    as (d & Hrun & _); [|exact Hcs|].
  { simpl. by rewrite lookup_insert_ne, lookup_insert_eq. }
  rewrite Hrun. eexists p1, p2, _. split; [reflexivity|]. split; [exact Hne|].
  simpl. by rewrite lookup_insert_ne, lookup_insert_eq.
Qed.

Lemma entries_are_independent_witness :
  ∃ p1 p2 w',
    (p1 ← lLog_Info svc_logger; p2 ← lLog_Warn svc_logger;
     chain p1 [CStr "k" "v"] ;; mret (p1, p2)) empty_world = (Returned (p1, p2), w') ∧
    p1 ≠ p2 ∧
    heap w' !! p2 =
      Some {| level := logrus.WarnLevel;
              entry := logrus.WithField (writer svc_logger) "time" (logrus.VTime 7) |}.
Proof.
  apply (entries_are_independent svc_logger empty_world logrus.InfoLevel logrus.WarnLevel
           lLog_Info lLog_Warn [CStr "k" "v"]).
  - unfold constructors. rewrite !elem_of_cons. tauto.
  - unfold constructors. rewrite !elem_of_cons. tauto.
  - repeat constructor.
Defined.

(** ** Flushing again *)

(** X13. [Flush] keeps no record of having run and leaves the entry as it
    was: at the Debug, Info, Warn and Error levels a second [Flush] hands
    the backend the same entry once more, with the second message. *)
Theorem Flush_twice_writes_twice (w : World) (l : loc) (e : lEntry) (m1 m2 : string) :
  heap w !! l = Some e →
  level e ≠ logrus.FatalLevel →
  level e ≠ logrus.PanicLevel →
  ∃ w',
    (lEntry_Flush l m1 ;; lEntry_Flush l m2) w = (Returned (), w') ∧
    calls w' = calls w ++ [EvLogln (entry e) (level e) m1; EvLogln (entry e) (level e) m2] ∧
    heap w' = heap w.
Proof.
  intros Hl Hnf Hnp. unfold mbind, Go_bind.
  rewrite (Flush_ok _ _ _ _ Hl), decide_False by done.
  assert (flush_outcome e = Returned ()) as ->
    by (unfold flush_outcome; by destruct (level e)).
  rewrite (Flush_ok l e) by done. rewrite decide_False by done.
  assert (flush_outcome e = Returned ()) as ->
    by (unfold flush_outcome; by destruct (level e)).
  eexists. split; [reflexivity|]. simpl. by rewrite <-app_assoc.
Qed.

Lemma Flush_twice_writes_twice_witness :
  ∃ w',
    (lEntry_Flush 1 "first" ;; lEntry_Flush 1 "second") (one_entry_world logrus.WarnLevel) =
      (Returned (), w') ∧
    calls w' = calls (one_entry_world logrus.WarnLevel) ++
      [EvLogln (entry (svc_entry logrus.WarnLevel)) logrus.WarnLevel "first";
       EvLogln (entry (svc_entry logrus.WarnLevel)) logrus.WarnLevel "second"] ∧
    heap w' = heap (one_entry_world logrus.WarnLevel).
Proof.
  apply (Flush_twice_writes_twice (one_entry_world logrus.WarnLevel) 1
           (svc_entry logrus.WarnLevel) "first" "second"); [reflexivity | discriminate..].
Defined.

(** ** Several errors on one entry *)

Lemma append_list (a b : string) :
  String.list_ascii_of_string (a +:+ b) =
  String.list_ascii_of_string a ++ String.list_ascii_of_string b.
Proof.
  induction a as [|c a IH]; [done|].
  unfold String.append; fold String.append. simpl. by rewrite IH.
Qed.

Lemma append_inj_r (a b s : string) : a +:+ s = b +:+ s → a = b.
Proof.
  intros Heq. apply (f_equal String.list_ascii_of_string) in Heq.
  rewrite !append_list in Heq. apply app_inv_tail in Heq.
  apply (f_equal String.string_of_list_ascii) in Heq.
  by rewrite !String.string_of_list_ascii_of_string in Heq.
Qed.

(** The fields [AddError key] sets: the stack under [key + "_stack"], the
    message under [key], nothing else. *)
Lemma written_CError (key : string) (ev : error_value) (j : string) :
  written (CError key (Some ev)) !! j =
    if decide (j = key +:+ "_stack") then Some (logrus.VStr (ErrorStack ev))
    else if decide (j = key) then Some (logrus.VStr (Error ev))
    else None.
Proof.
  simpl. case_decide as H1; [subst; apply lookup_insert_eq|].
  rewrite lookup_insert_ne by done.
  case_decide as H2; [subst; apply lookup_singleton_eq|].
  by rewrite lookup_singleton_ne.
Qed.

Lemma two_errors_lookup (l : loc) (e : lEntry) (k1 k2 : string) (e1 e2 : error_value)
    (w : World) :
  heap w !! l = Some e →
  ∃ w' e',
    chain l [CError k1 (Some e1); CError k2 (Some e2)] w = (Returned l, w') ∧
    heap w' !! l = Some e' ∧
    ∀ j, logrus.Data (entry e') !! j =
           match written (CError k2 (Some e2)) !! j with
           | Some v => Some v
           | None =>
               match written (CError k1 (Some e1)) !! j with
               | Some v => Some v
               | None => logrus.Data (entry e) !! j
               end
           end.
Proof.
  intros Hl. rewrite (two_calls_ok _ _ _ _ _ Hl) by (simpl; eauto).
  eexists _, _. split; [reflexivity|]. split; [simpl; apply lookup_insert_eq|].
  intros j. cbn [entry logrus.Data written]. rewrite !lookup_union.
  by destruct (<[k2 +:+ "_stack" := _]> _ !! j), (<[k1 +:+ "_stack" := _]> _ !! j),
       (logrus.Data (entry e) !! j).
Qed.

(** X14. Two errors attached under keys that do not run into each other
    (neither key is the other, nor the other with "_stack" appended) are
    both kept in full: each key holds its error's message and each
    "_stack" key its error's trace text. *)
Theorem two_errors_side_by_side
    (w : World) (l : loc) (e : lEntry) (k1 k2 : string) (e1 e2 : error_value) :
  heap w !! l = Some e →
  k1 ≠ k2 →
  k1 ≠ k2 +:+ "_stack" →
  k2 ≠ k1 +:+ "_stack" →
  ∃ w' e',
    chain l [CError k1 (Some e1); CError k2 (Some e2)] w = (Returned l, w') ∧
    heap w' !! l = Some e' ∧
    logrus.Data (entry e') !! k1 = Some (logrus.VStr (Error e1)) ∧
    logrus.Data (entry e') !! (k1 +:+ "_stack") = Some (logrus.VStr (ErrorStack e1)) ∧
    logrus.Data (entry e') !! k2 = Some (logrus.VStr (Error e2)) ∧
    logrus.Data (entry e') !! (k2 +:+ "_stack") = Some (logrus.VStr (ErrorStack e2)).
Proof.
  intros Hl H12 H1s H2s.
  destruct (two_errors_lookup l e k1 k2 e1 e2 w Hl) as (w' & e' & Hrun & Hl' & Hd).
  exists w', e'. split; [exact Hrun|]. split; [exact Hl'|].
  pose proof (key_ne_stack_key k1). pose proof (key_ne_stack_key k2).
  assert (k1 +:+ "_stack" ≠ k2 +:+ "_stack") by (by intros ?%append_inj_r).
  rewrite !Hd, !written_CError.
  split_and!; repeat case_decide; congruence.
Qed.

Lemma two_errors_side_by_side_witness :
  ∃ w' e',
    chain 1 [CError "read" (Some traced_error); CError "close" (Some bare_error)]
      (one_entry_world logrus.ErrorLevel) = (Returned 1%positive, w') ∧
    heap w' !! 1%positive = Some e' ∧
    logrus.Data (entry e') !! "read" = Some (logrus.VStr "open: no such file") ∧
    logrus.Data (entry e') !! "read_stack" =
      Some (logrus.VStr "main.go:12: open: no such file") ∧
    logrus.Data (entry e') !! "close" = Some (logrus.VStr "boom") ∧
    logrus.Data (entry e') !! "close_stack" = Some (logrus.VStr "").
Proof.
  apply (two_errors_side_by_side (one_entry_world logrus.ErrorLevel) 1
           (svc_entry logrus.ErrorLevel) "read" "close" traced_error bare_error);
    [reflexivity | discriminate..].
Defined.

(** X15. The derived key can run into a caller's key: after
    [AddError key e1] and then [AddError (key + "_stack") e2], the field
    [key + "_stack"] holds the message of [e2]; the trace text of [e1] is
    no longer in the entry under that key. *)
Theorem stack_key_can_be_overwritten
    (w : World) (l : loc) (e : lEntry) (key : string) (e1 e2 : error_value) :
  heap w !! l = Some e →
  ∃ w' e',
    chain l [CError key (Some e1); CError (key +:+ "_stack") (Some e2)] w = (Returned l, w') ∧
    heap w' !! l = Some e' ∧
    logrus.Data (entry e') !! key = Some (logrus.VStr (Error e1)) ∧
    logrus.Data (entry e') !! (key +:+ "_stack") = Some (logrus.VStr (Error e2)).
Proof.
  intros Hl.
  destruct (two_errors_lookup l e key (key +:+ "_stack") e1 e2 w Hl)
    as (w' & e' & Hrun & Hl' & Hd).
  exists w', e'. split; [exact Hrun|]. split; [exact Hl'|].
  pose proof (key_ne_stack_key key) as H1.
  pose proof (key_ne_stack_key (key +:+ "_stack")) as H2.
  assert (key ≠ (key +:+ "_stack") +:+ "_stack") as H3.
  { intros Heq. apply (f_equal String.length) in Heq.
    revert Heq. clear. induction key as [|c key IH]; [done|].
    unfold String.append; fold String.append. simpl. intros [=]. by apply IH. }
  rewrite !Hd, !written_CError.
  split; repeat case_decide; congruence.
Qed.

Lemma stack_key_can_be_overwritten_witness :
  ∃ w' e',
    chain 1 [CError "db" (Some traced_error); CError "db_stack" (Some bare_error)]
      (one_entry_world logrus.ErrorLevel) = (Returned 1%positive, w') ∧
    heap w' !! 1%positive = Some e' ∧
    logrus.Data (entry e') !! "db" = Some (logrus.VStr "open: no such file") ∧
    logrus.Data (entry e') !! "db_stack" = Some (logrus.VStr "boom").
Proof.
  apply (stack_key_can_be_overwritten (one_entry_world logrus.ErrorLevel) 1
           (svc_entry logrus.ErrorLevel) "db" traced_error bare_error).
  reflexivity.
Defined.
